(** * ICP_DAO: the proposal registry of [src/index.ts]

    A shallow embedding of the Azle canister: the [Proposal] record, the
    [proposalStorage] map and the seven exported functions, followed by the
    properties of the registry. *)

From Stdlib Require Import NArith String.
From stdpp Require Import base option gmap strings list.

Local Open Scope string_scope.

(** ** Data model *)

(** A [Principal] is only ever used through [toString()]; it is kept as its
    textual form, which identifies the principal. *)
Record Principal := mkPrincipal { toString : string }.

(** [nat64]: the time stamps of [ic.time()]. They are stored and never
    computed with. *)
Definition nat64 := N.

(** [number]: the two vote counters. A TypeScript [number] is a double; the
    counters start at [0] and only ever go through [x + 1], so they hold an
    integer between [0] and [2^53], which is the value kept here. *)
Definition number := N.

(** [x + 1] on such a double: exact below [2^53]; at [2^53] the sum
    [2^53 + 1] is not representable and rounds (ties to even) back to
    [2^53]. *)
Definition number_succ (x : number) : number :=
  if (x <? 2 ^ 53)%N then (x + 1)%N else x.

Module Proposal.
Record t := mk {
  owner : Principal;
  id : string;
  title : string;
  description : string;
  voters : list string;
  yesVotes : number;
  noVotes : number;
  created_at : nat64;
  updated_at : option nat64
}.
End Proposal.

Module ProposalPayload.
Record t := mk {
  title : string;
  description : string
}.
End ProposalPayload.

(** [Result<T, string>] of Azle. *)
Inductive Result (A : Type) : Type :=
| Ok (a : A)
| Err (e : string).
Arguments Ok {A} a.
Arguments Err {A} e.

Definition is_Err {A} (r : Result A) : bool :=
  match r with Ok _ => false | Err _ => true end.

(** ** The canister monad

    Every exported function reads the ambient call context ([ic.caller()],
    [ic.time()], the next value of [uuidv4()]) and reads or writes the one
    global [proposalStorage]. *)

Record Env := mkEnv {
  caller : Principal;
  time : nat64;
  uuid : string
}.

Definition M (A : Type) : Type :=
  Env → gmap string Proposal.t → A * gmap string Proposal.t.

#[global] Instance M_ret : MRet M := λ A a _ st, (a, st).
#[global] Instance M_bind : MBind M := λ A B f m env st,
  let '(a, st') := m env st in f a env st'.
#[global] Instance M_fmap : FMap M := λ A B f m env st,
  let '(a, st') := m env st in (f a, st').

Definition ic_caller : M Principal := λ env st, (caller env, st).
Definition ic_time : M nat64 := λ env st, (time env, st).
Definition uuidv4 : M string := λ env st, (uuid env, st).

(** [StableBTreeMap]: [get], [insert] (which hands back the value it
    replaced), [remove] (which hands back the value it removed) and
    [values]. The order in which [values] enumerates the tree is the
    library's; here it is the order of [map_to_list]. The bounds on the
    sizes of keys and values given to the constructor (44 and 1024 bytes)
    are the library's to enforce: the map here holds any key and record. *)
Module proposalStorage.
Definition get (key : string) : M (option Proposal.t) :=
  λ _ st, (st !! key, st).
Definition insert (key : string) (value : Proposal.t) : M (option Proposal.t) :=
  λ _ st, (st !! key, <[key := value]> st).
Definition remove (key : string) : M (option Proposal.t) :=
  λ _ st, (st !! key, delete key st).
Definition values : M (list Proposal.t) :=
  λ _ st, ((map_to_list st).*2, st).
End proposalStorage.

(** [Array.prototype.includes] on a [Vec<string>]. *)
Definition includes (l : list string) (x : string) : bool :=
  bool_decide (x ∈ l).

(** [!s] for a string [s]: true exactly for the empty string. *)
Definition falsy (s : string) : bool :=
  match s with EmptyString => true | String _ _ => false end.

(** ** The exported functions *)

Definition getProposals : M (Result (list Proposal.t)) :=
  vs ← proposalStorage.values;
  mret (Ok vs).

Definition getProposal (id : string) : M (Result Proposal.t) :=
  o ← proposalStorage.get id;
  match o with
  | Some proposal => mret (Ok proposal)
  | None => mret (Err ("A proposal with id=" +:+ id +:+ " not found"))
  end.

Definition createProposal (payload : ProposalPayload.t) : M (Result Proposal.t) :=
  let title := ProposalPayload.title payload in
  let description := ProposalPayload.description payload in
  if falsy title || falsy description then
    mret (Err "Missing required fields")
  else
    c ← ic_caller;
    i ← uuidv4;
    t ← ic_time;
    let proposal := {|
      Proposal.owner := c;
      Proposal.id := i;
      Proposal.title := title;
      Proposal.description := description;
      Proposal.voters := [];
      Proposal.yesVotes := 0%N;
      Proposal.noVotes := 0%N;
      Proposal.created_at := t;
      Proposal.updated_at := None
    |} in
    _ ← proposalStorage.insert (Proposal.id proposal) proposal;
    mret (Ok proposal).

Definition voteYes (id : string) : M (Result Proposal.t) :=
  o ← proposalStorage.get id;
  match o with
  | Some proposal =>
      c ← ic_caller;
      if bool_decide (toString (Proposal.owner proposal) = toString c) then
        mret (Err "Owners cannot vote for their own proposal")
      else
        c' ← ic_caller;
        let hasVoted := includes (Proposal.voters proposal) (toString c') in
        if hasVoted then
          mret (Err "Already voted")
        else
          t ← ic_time;
          let updatedProposal := {|
            Proposal.owner := Proposal.owner proposal;
            Proposal.id := Proposal.id proposal;
            Proposal.title := Proposal.title proposal;
            Proposal.description := Proposal.description proposal;
            Proposal.voters := Proposal.voters proposal;
            Proposal.yesVotes := number_succ (Proposal.yesVotes proposal);
            Proposal.noVotes := Proposal.noVotes proposal;
            Proposal.created_at := Proposal.created_at proposal;
            Proposal.updated_at := Some t
          |} in
          _ ← proposalStorage.insert (Proposal.id proposal) updatedProposal;
          mret (Ok updatedProposal)
  | None =>
      mret (Err ("Couldn't update a proposal with id=" +:+ id
                 +:+ ". Proposal not found"))
  end.

Definition voteNo (id : string) : M (Result Proposal.t) :=
  o ← proposalStorage.get id;
  match o with
  | Some proposal =>
      c ← ic_caller;
      if bool_decide (toString (Proposal.owner proposal) = toString c) then
        mret (Err "Owners cannot vote for their own proposal")
      else
        c' ← ic_caller;
        let hasVoted := includes (Proposal.voters proposal) (toString c') in
        if hasVoted then
          mret (Err "Already voted")
        else
          t ← ic_time;
          let updatedProposal := {|
            Proposal.owner := Proposal.owner proposal;
            Proposal.id := Proposal.id proposal;
            Proposal.title := Proposal.title proposal;
            Proposal.description := Proposal.description proposal;
            Proposal.voters := Proposal.voters proposal;
            Proposal.yesVotes := Proposal.yesVotes proposal;
            Proposal.noVotes := number_succ (Proposal.noVotes proposal);
            Proposal.created_at := Proposal.created_at proposal;
            Proposal.updated_at := Some t
          |} in
          _ ← proposalStorage.insert (Proposal.id proposal) updatedProposal;
          mret (Ok updatedProposal)
  | None =>
      mret (Err ("Couldn't update a proposal with id=" +:+ id
                 +:+ ". Proposal not found"))
  end.

Definition updateProposal (id : string) (payload : ProposalPayload.t)
  : M (Result Proposal.t) :=
  o ← proposalStorage.get id;
  match o with
  | Some proposal =>
      c ← ic_caller;
      if negb (bool_decide (toString (Proposal.owner proposal) = toString c)) then
        mret (Err "Only the owner of a proposal can update it")
      else
        t ← ic_time;
        let updatedProposal := {|
          Proposal.owner := Proposal.owner proposal;
          Proposal.id := Proposal.id proposal;
          Proposal.title := ProposalPayload.title payload;
          Proposal.description := ProposalPayload.description payload;
          Proposal.voters := Proposal.voters proposal;
          Proposal.yesVotes := Proposal.yesVotes proposal;
          Proposal.noVotes := Proposal.noVotes proposal;
          Proposal.created_at := Proposal.created_at proposal;
          Proposal.updated_at := Some t
        |} in
        _ ← proposalStorage.insert (Proposal.id proposal) updatedProposal;
        mret (Ok updatedProposal)
  | None =>
      mret (Err ("Couldn't update a proposal with id=" +:+ id
                 +:+ ". Proposal not found"))
  end.

Definition deleteProposal (id : string) : M (Result Proposal.t) :=
  o ← proposalStorage.remove id;
  match o with
  | Some deletedProposal => mret (Ok deletedProposal)
  | None =>
      mret (Err ("Couldn't delete a proposal with id=" +:+ id
                 +:+ ". Proposal not found."))
  end.

(** ** Calls and replies *)

(** One call of the canister's interface. *)
Inductive Call : Type :=
| call_getProposals
| call_getProposal (id : string)
| call_createProposal (payload : ProposalPayload.t)
| call_voteYes (id : string)
| call_voteNo (id : string)
| call_updateProposal (id : string) (payload : ProposalPayload.t)
| call_deleteProposal (id : string).

Inductive Reply : Type :=
| reply_list (r : Result (list Proposal.t))
| reply_one (r : Result Proposal.t).

Definition reply_is_Err (r : Reply) : bool :=
  match r with
  | reply_list r => is_Err r
  | reply_one r => is_Err r
  end.

Definition dispatch (c : Call) : M Reply :=
  match c with
  | call_getProposals => reply_list <$> getProposals
  | call_getProposal id => reply_one <$> getProposal id
  | call_createProposal payload => reply_one <$> createProposal payload
  | call_voteYes id => reply_one <$> voteYes id
  | call_voteNo id => reply_one <$> voteNo id
  | call_updateProposal id payload => reply_one <$> updateProposal id payload
  | call_deleteProposal id => reply_one <$> deleteProposal id
  end.

(** The stores the canister can be in: it starts empty, and every call runs
    to completion in its own call context. *)
Inductive reachable : gmap string Proposal.t → Prop :=
| reachable_init : reachable ∅
| reachable_call st env c :
    reachable st → reachable (dispatch c env st).2.

(** The calls that write a record. *)
Definition writes_record (c : Call) : bool :=
  match c with
  | call_createProposal _ | call_voteYes _ | call_voteNo _
  | call_updateProposal _ _ => true
  | call_getProposals | call_getProposal _ | call_deleteProposal _ => false
  end.

(** ** The invariant of the stored records *)

(** What holds of the record stored under key [k]: it carries [k] as its
    [id], nobody is listed in its [voters], and its counters are in the
    range where [number] is read as an integer. *)
Definition record_ok (k : string) (p : Proposal.t) : Prop :=
  Proposal.id p = k
  ∧ Proposal.voters p = []
  ∧ (Proposal.yesVotes p ≤ 2 ^ 53)%N
  ∧ (Proposal.noVotes p ≤ 2 ^ 53)%N.

(** ** The error taxonomy

    The functions report errors as messages; the specification names four
    kinds of error. [error_kind] reads a message as its kind. *)
Inductive ErrorKind : Type :=
| InvalidInput
| NotFound
| Forbidden
| AlreadyVoted.

(** [starts_with pre s]: the string [s] begins with [pre]. *)
Fixpoint starts_with (pre s : string) : bool :=
  match pre with
  | "" => true
  | String a pre' =>
      match s with
      | "" => false
      | String b s' => Ascii.eqb a b && starts_with pre' s'
      end
  end.

Definition error_kind (msg : string) : option ErrorKind :=
  if String.eqb msg "Missing required fields" then Some InvalidInput
  else if String.eqb msg "Owners cannot vote for their own proposal"
          || String.eqb msg "Only the owner of a proposal can update it"
  then Some Forbidden
  else if String.eqb msg "Already voted" then Some AlreadyVoted
  else if starts_with "A proposal with id=" msg
          || starts_with "Couldn't update a proposal with id=" msg
          || starts_with "Couldn't delete a proposal with id=" msg
  then Some NotFound
  else None.

Definition fails_with {A} (k : ErrorKind) (r : Result A) : Prop :=
  match r with
  | Ok _ => False
  | Err msg => error_kind msg = Some k
  end.

(** ** Sample call contexts and stores *)

Definition alice : Principal := mkPrincipal "rrkah-fqaaa-aaaaa-aaaaq-cai".
Definition bob : Principal := mkPrincipal "ryjl3-tyaaa-aaaaa-aaaba-cai".

Definition env_alice : Env := mkEnv alice 100%N "1b4e28ba-2fa1-41d2-883f-0016d3cca427".
Definition env_bob : Env := mkEnv bob 200%N "6fa459ea-ee8a-4ca4-894e-db77e160355e".
Definition env_bob' : Env := mkEnv bob 300%N "7c9e6679-7425-40de-944b-e07fc1f90ae7".

Definition X : string := "1b4e28ba-2fa1-41d2-883f-0016d3cca427".

Definition payload_TD : ProposalPayload.t := ProposalPayload.mk "T" "D".

(** Alice creates a proposal. *)
Definition store1 : gmap string Proposal.t :=
  (dispatch (call_createProposal payload_TD) env_alice ∅).2.
(** Bob votes yes on it. *)
Definition store2 : gmap string Proposal.t :=
  (dispatch (call_voteYes X) env_bob store1).2.

(** The record after Alice's [createProposal], and after Bob's [voteYes]. *)
Definition proposal1 : Proposal.t := {|
  Proposal.owner := alice;
  Proposal.id := X;
  Proposal.title := "T";
  Proposal.description := "D";
  Proposal.voters := [];
  Proposal.yesVotes := 0%N;
  Proposal.noVotes := 0%N;
  Proposal.created_at := 100%N;
  Proposal.updated_at := None
|}.

Definition proposal2 : Proposal.t := {|
  Proposal.owner := alice;
  Proposal.id := X;
  Proposal.title := "T";
  Proposal.description := "D";
  Proposal.voters := [];
  Proposal.yesVotes := 1%N;
  Proposal.noVotes := 0%N;
  Proposal.created_at := 100%N;
  Proposal.updated_at := Some 200%N
|}.

(** ** What a call addresses, and how it may fail *)

(** The key of the store a call reads or writes: the id it is given, or, for
    [createProposal], the id that [uuidv4] produces. *)
Definition target (c : Call) (env : Env) : option string :=
  match c with
  | call_getProposals => None
  | call_createProposal _ => Some (uuid env)
  | call_getProposal id | call_voteYes id | call_voteNo id
  | call_updateProposal id _ | call_deleteProposal id => Some id
  end.

(** The kind of the error a reply carries, if it is an error. *)
Definition reply_error_kind (r : Reply) : option ErrorKind :=
  match r with
  | reply_list (Err msg) | reply_one (Err msg) => error_kind msg
  | reply_list (Ok _) | reply_one (Ok _) => None
  end.

(** The kinds of error that the body of each function can return. *)
Definition may_fail_with (c : Call) : list ErrorKind :=
  match c with
  | call_getProposals => []
  | call_getProposal _ | call_deleteProposal _ => [NotFound]
  | call_createProposal _ => [InvalidInput]
  | call_voteYes _ | call_voteNo _ => [NotFound; Forbidden; AlreadyVoted]
  | call_updateProposal _ _ => [NotFound; Forbidden]
  end.

(** A record that was never voted on or edited counts no vote. *)
Definition untouched_ok (_ : string) (p : Proposal.t) : Prop :=
  Proposal.updated_at p = None →
  Proposal.yesVotes p = 0%N ∧ Proposal.noVotes p = 0%N.

Definition carol : Principal := mkPrincipal "r7inp-6aaaa-aaaaa-aaabq-cai".
Definition env_carol : Env := mkEnv carol 500%N "9b2d7f0e-3c41-4a67-8e15-5d0c2a9f6b13".

(** ** Sequences of calls *)

(** The store after a sequence of calls, each in its own call context. *)
Definition run_calls (l : list (Call * Env)) (st : gmap string Proposal.t)
  : gmap string Proposal.t :=
  foldl (λ st ce, (dispatch ce.1 ce.2 st).2) st l.

(** A ballot: [true] for [voteYes], [false] for [voteNo]. *)
Definition vote_call (id : string) (ballot : bool * Env) : Call * Env :=
  (if ballot.1 then call_voteYes id else call_voteNo id, ballot.2).

Definition count_ballots (b : bool) (l : list (bool * Env)) : N :=
  N.of_nat (length (filter (λ ballot, ballot.1 = b) l)).

(** ** Equations of the functions *)

Ltac run :=
  unfold getProposals, getProposal, createProposal, voteYes, voteNo,
    updateProposal, deleteProposal,
    proposalStorage.get, proposalStorage.insert, proposalStorage.remove,
    proposalStorage.values, ic_caller, ic_time, uuidv4,
    mbind, M_bind, mret, M_ret; cbn.

Lemma falsy_spec (s : string) : falsy s = true ↔ s = "".
Proof. destruct s; cbn; split; congruence. Qed.

Lemma error_kind_get id :
  error_kind ("A proposal with id=" +:+ id +:+ " not found") = Some NotFound.
Proof. reflexivity. Qed.

Lemma error_kind_update id :
  error_kind ("Couldn't update a proposal with id=" +:+ id
              +:+ ". Proposal not found") = Some NotFound.
Proof. reflexivity. Qed.

Lemma error_kind_delete id :
  error_kind ("Couldn't delete a proposal with id=" +:+ id
              +:+ ". Proposal not found.") = Some NotFound.
Proof. reflexivity. Qed.

Lemma getProposal_Some id env st p :
  st !! id = Some p → getProposal id env st = (Ok p, st).
Proof. intros H. run. by rewrite H. Qed.

Lemma getProposal_None id env st :
  st !! id = None →
  getProposal id env st = (Err ("A proposal with id=" +:+ id +:+ " not found"), st).
Proof. intros H. run. by rewrite H. Qed.

Lemma createProposal_invalid payload env st :
  ProposalPayload.title payload = "" ∨ ProposalPayload.description payload = "" →
  createProposal payload env st = (Err "Missing required fields", st).
Proof.
  intros H. run.
  destruct H as [-> | ->]; [done |].
  by rewrite orb_true_r.
Qed.

Lemma createProposal_valid payload env st :
  ProposalPayload.title payload ≠ "" →
  ProposalPayload.description payload ≠ "" →
  let proposal := {|
    Proposal.owner := caller env;
    Proposal.id := uuid env;
    Proposal.title := ProposalPayload.title payload;
    Proposal.description := ProposalPayload.description payload;
    Proposal.voters := [];
    Proposal.yesVotes := 0%N;
    Proposal.noVotes := 0%N;
    Proposal.created_at := time env;
    Proposal.updated_at := None
  |} in
  createProposal payload env st = (Ok proposal, <[uuid env := proposal]> st).
Proof.
  intros Ht Hd. run.
  destruct (falsy (ProposalPayload.title payload)) eqn:Et.
  { by apply falsy_spec in Et. }
  destruct (falsy (ProposalPayload.description payload)) eqn:Ed.
  { by apply falsy_spec in Ed. }
  done.
Qed.

Lemma vote_None id env st :
  st !! id = None →
  let msg := "Couldn't update a proposal with id=" +:+ id
             +:+ ". Proposal not found" in
  voteYes id env st = (Err msg, st) ∧ voteNo id env st = (Err msg, st).
Proof. intros H. run. by rewrite H. Qed.

Lemma vote_owner id env st p :
  st !! id = Some p →
  toString (Proposal.owner p) = toString (caller env) →
  let msg := "Owners cannot vote for their own proposal" in
  voteYes id env st = (Err msg, st) ∧ voteNo id env st = (Err msg, st).
Proof.
  intros H Ho. run. rewrite H. cbn.
  by rewrite bool_decide_eq_true_2.
Qed.

Lemma vote_voted id env st p :
  st !! id = Some p →
  toString (Proposal.owner p) ≠ toString (caller env) →
  toString (caller env) ∈ Proposal.voters p →
  voteYes id env st = (Err "Already voted", st)
  ∧ voteNo id env st = (Err "Already voted", st).
Proof.
  intros H Ho Hv. run. rewrite H. cbn.
  rewrite bool_decide_eq_false_2 by done.
  unfold includes. by rewrite bool_decide_eq_true_2.
Qed.

Lemma voteYes_fresh id env st p :
  st !! id = Some p →
  toString (Proposal.owner p) ≠ toString (caller env) →
  toString (caller env) ∉ Proposal.voters p →
  let updatedProposal := {|
    Proposal.owner := Proposal.owner p;
    Proposal.id := Proposal.id p;
    Proposal.title := Proposal.title p;
    Proposal.description := Proposal.description p;
    Proposal.voters := Proposal.voters p;
    Proposal.yesVotes := number_succ (Proposal.yesVotes p);
    Proposal.noVotes := Proposal.noVotes p;
    Proposal.created_at := Proposal.created_at p;
    Proposal.updated_at := Some (time env)
  |} in
  voteYes id env st
  = (Ok updatedProposal, <[Proposal.id p := updatedProposal]> st).
Proof.
  intros H Ho Hv. run. rewrite H. cbn.
  rewrite bool_decide_eq_false_2 by done.
  unfold includes. by rewrite bool_decide_eq_false_2.
Qed.

Lemma voteNo_fresh id env st p :
  st !! id = Some p →
  toString (Proposal.owner p) ≠ toString (caller env) →
  toString (caller env) ∉ Proposal.voters p →
  let updatedProposal := {|
    Proposal.owner := Proposal.owner p;
    Proposal.id := Proposal.id p;
    Proposal.title := Proposal.title p;
    Proposal.description := Proposal.description p;
    Proposal.voters := Proposal.voters p;
    Proposal.yesVotes := Proposal.yesVotes p;
    Proposal.noVotes := number_succ (Proposal.noVotes p);
    Proposal.created_at := Proposal.created_at p;
    Proposal.updated_at := Some (time env)
  |} in
  voteNo id env st
  = (Ok updatedProposal, <[Proposal.id p := updatedProposal]> st).
Proof.
  intros H Ho Hv. run. rewrite H. cbn.
  rewrite bool_decide_eq_false_2 by done.
  unfold includes. by rewrite bool_decide_eq_false_2.
Qed.

Lemma updateProposal_None id payload env st :
  st !! id = None →
  updateProposal id payload env st
  = (Err ("Couldn't update a proposal with id=" +:+ id
          +:+ ". Proposal not found"), st).
Proof. intros H. run. by rewrite H. Qed.

Lemma updateProposal_other id payload env st p :
  st !! id = Some p →
  toString (Proposal.owner p) ≠ toString (caller env) →
  updateProposal id payload env st
  = (Err "Only the owner of a proposal can update it", st).
Proof.
  intros H Ho. run. rewrite H. cbn.
  by rewrite bool_decide_eq_false_2.
Qed.

Lemma updateProposal_owner id payload env st p :
  st !! id = Some p →
  toString (Proposal.owner p) = toString (caller env) →
  let updatedProposal := {|
    Proposal.owner := Proposal.owner p;
    Proposal.id := Proposal.id p;
    Proposal.title := ProposalPayload.title payload;
    Proposal.description := ProposalPayload.description payload;
    Proposal.voters := Proposal.voters p;
    Proposal.yesVotes := Proposal.yesVotes p;
    Proposal.noVotes := Proposal.noVotes p;
    Proposal.created_at := Proposal.created_at p;
    Proposal.updated_at := Some (time env)
  |} in
  updateProposal id payload env st
  = (Ok updatedProposal, <[Proposal.id p := updatedProposal]> st).
Proof.
  intros H Ho. run. rewrite H. cbn.
  by rewrite bool_decide_eq_true_2.
Qed.

Lemma deleteProposal_Some id env st p :
  st !! id = Some p → deleteProposal id env st = (Ok p, delete id st).
Proof. intros H. run. by rewrite H. Qed.

Lemma deleteProposal_None id env st :
  st !! id = None →
  deleteProposal id env st
  = (Err ("Couldn't delete a proposal with id=" +:+ id
          +:+ ". Proposal not found."), st).
Proof. intros H. run. rewrite H. by rewrite delete_id. Qed.

Lemma toString_inj (a b : Principal) : toString a = toString b ↔ a = b.
Proof. destruct a, b; cbn; split; congruence. Qed.

(** ** Invariants of the reachable stores *)

Lemma number_succ_bound (x : number) :
  (x ≤ 2 ^ 53)%N → (number_succ x ≤ 2 ^ 53)%N.
Proof.
  unfold number_succ. intros H.
  destruct (N.ltb_spec x (2 ^ 53)); lia.
Qed.

Lemma number_succ_exact (x : number) :
  (x < 2 ^ 53)%N → number_succ x = (x + 1)%N.
Proof.
  unfold number_succ. intros H.
  destruct (N.ltb_spec x (2 ^ 53)); lia.
Qed.

Lemma dispatch_record_ok c env st :
  map_Forall record_ok st → map_Forall record_ok (dispatch c env st).2.
Proof.
  intros Hst. destruct c; unfold dispatch, fmap, M_fmap; run.
  - done.
  - by destruct (st !! id).
  - destruct (falsy _ || falsy _); cbn; [done |].
    apply map_Forall_insert_2; [| done].
    repeat split; cbn; lia.
  - destruct (st !! id) as [p |] eqn:E; cbn; [| done].
    destruct (Hst _ _ E) as (Hid & Hv & Hy & Hn).
    case_bool_decide; cbn; [done |].
    destruct (includes _ _); cbn; [done |].
    apply map_Forall_insert_2; [| done].
    repeat split; cbn; auto using number_succ_bound.
  - destruct (st !! id) as [p |] eqn:E; cbn; [| done].
    destruct (Hst _ _ E) as (Hid & Hv & Hy & Hn).
    case_bool_decide; cbn; [done |].
    destruct (includes _ _); cbn; [done |].
    apply map_Forall_insert_2; [| done].
    repeat split; cbn; auto using number_succ_bound.
  - destruct (st !! id) as [p |] eqn:E; cbn; [| done].
    destruct (Hst _ _ E) as (Hid & Hv & Hy & Hn).
    case_bool_decide; cbn; [| done].
    apply map_Forall_insert_2; [| done].
    repeat split; cbn; auto.
  - destruct (st !! id) as [p |] eqn:E; cbn.
    + by apply map_Forall_delete.
    + by rewrite delete_id.
Qed.

Lemma reachable_record_ok st : reachable st → map_Forall record_ok st.
Proof.
  induction 1 as [| st env c _ IH].
  - apply map_Forall_empty.
  - by apply dispatch_record_ok.
Qed.

Lemma reachable_id st k p :
  reachable st → st !! k = Some p → Proposal.id p = k.
Proof. intros Hr Hk. by destruct (reachable_record_ok st Hr k p Hk). Qed.

(** No reachable store lists a voter: [voteYes] and [voteNo] copy [voters]
    as it is, and [createProposal] starts it empty. *)
Lemma reachable_voters st k p :
  reachable st → st !! k = Some p → Proposal.voters p = [].
Proof.
  intros Hr Hk.
  by destruct (reachable_record_ok st Hr k p Hk) as (_ & ? & _).
Qed.

(** So the [Already voted] branch is never taken. *)
Lemma reachable_never_AlreadyVoted st id env :
  reachable st →
  ¬ fails_with AlreadyVoted (voteYes id env st).1
  ∧ ¬ fails_with AlreadyVoted (voteNo id env st).1.
Proof.
  intros Hr.
  destruct (st !! id) as [p |] eqn:E.
  - destruct (decide (toString (Proposal.owner p) = toString (caller env)))
      as [Ho | Ho].
    + destruct (vote_owner id env st p E Ho) as [-> ->]. by cbn.
    + assert (toString (caller env) ∉ Proposal.voters p) as Hv.
      { rewrite (reachable_voters st id p Hr E). apply not_elem_of_nil. }
      rewrite (voteYes_fresh id env st p E Ho Hv).
      rewrite (voteNo_fresh id env st p E Ho Hv). cbn. tauto.
  - destruct (vote_None id env st E) as [-> ->]. by cbn.
Qed.

Lemma reachable_store1 : reachable store1.
Proof. apply reachable_call, reachable_init. Defined.

Lemma reachable_store2 : reachable store2.
Proof. apply reachable_call, reachable_store1. Defined.

Lemma store1_eq : store1 = {[X := proposal1]}.
Proof. reflexivity. Qed.

Lemma store2_eq : store2 = {[X := proposal2]}.
Proof. vm_compute. reflexivity. Qed.

(** * The claims *)

(** C1 (the code departs from it): the claim is that in every reachable
    store each proposal has [yesVotes + noVotes] equal to the length of its
    [voters]. After Alice creates a proposal and Bob votes yes on it, the
    stored proposal counts one vote and lists no voter. *)
Theorem votes_outnumber_voters :
  reachable store2
  ∧ store2 !! X = Some proposal2
  ∧ (Proposal.yesVotes proposal2 + Proposal.noVotes proposal2)%N = 1%N
  ∧ length (Proposal.voters proposal2) = 0.
Proof.
  split; [apply reachable_store2 |].
  split; [| done].
  rewrite store2_eq. apply lookup_singleton_eq.
Qed.

(** C2 (the code departs from it): the claim is that a successful vote adds
    the caller to [voters], increments the counter, stamps [updated_at],
    stores the record under the same id and returns it. Bob is not the owner
    of Alice's proposal and is not among its voters; his [voteYes]
    (respectively [voteNo]) succeeds, counts, stamps, stores and returns the
    record, yet Bob is not in the [voters] of the record stored and
    returned. *)
Theorem vote_omits_voter :
  store1 !! X = Some proposal1
  ∧ Proposal.owner proposal1 ≠ caller env_bob
  ∧ (toString (caller env_bob) ∉ Proposal.voters proposal1)
  ∧ (∃ p', voteYes X env_bob store1 = (Ok p', <[X := p']> store1)
           ∧ Proposal.yesVotes p' = (Proposal.yesVotes proposal1 + 1)%N
           ∧ Proposal.updated_at p' = Some (time env_bob)
           ∧ (toString (caller env_bob) ∉ Proposal.voters p'))
  ∧ (∃ p', voteNo X env_bob store1 = (Ok p', <[X := p']> store1)
           ∧ Proposal.noVotes p' = (Proposal.noVotes proposal1 + 1)%N
           ∧ Proposal.updated_at p' = Some (time env_bob)
           ∧ (toString (caller env_bob) ∉ Proposal.voters p')).
Proof.
  assert (store1 !! X = Some proposal1) as H1.
  { rewrite store1_eq. apply lookup_singleton_eq. }
  assert (toString (Proposal.owner proposal1) ≠ toString (caller env_bob)) as Ho
    by done.
  assert (toString (caller env_bob) ∉ Proposal.voters proposal1) as Hv
    by apply not_elem_of_nil.
  split; [done |]. split; [discriminate |]. split; [done |]. split.
  - eexists. rewrite (voteYes_fresh X env_bob store1 proposal1 H1 Ho Hv).
    repeat split; cbn. apply not_elem_of_nil.
  - eexists. rewrite (voteNo_fresh X env_bob store1 proposal1 H1 Ho Hv).
    repeat split; cbn. apply not_elem_of_nil.
Qed.

(** C3 (the code departs from it): the claim is that a second [voteYes] by
    the same caller on the same proposal fails with [AlreadyVoted] and
    changes neither counters nor voters. Bob's first [voteYes] on Alice's
    proposal succeeds; his second one succeeds too and stores a second yes
    vote. *)
Theorem second_voteYes_counts_again :
  let first := voteYes X env_bob store1 in
  let second := voteYes X env_bob' first.2 in
  first = (Ok proposal2, store2)
  ∧ (∃ p', second = (Ok p', <[X := p']> store2)
           ∧ Proposal.yesVotes p' = 2%N
           ∧ Proposal.voters p' = [])
  ∧ ¬ fails_with AlreadyVoted second.1
  ∧ second.2 ≠ store2.
Proof.
  cbn zeta.
  assert (voteYes X env_bob store1 = (Ok proposal2, store2)) as ->.
  { vm_compute. reflexivity. }
  assert (store2 !! X = Some proposal2) as H2.
  { rewrite store2_eq. apply lookup_singleton_eq. }
  assert (toString (Proposal.owner proposal2) ≠ toString (caller env_bob')) as Ho
    by done.
  assert (toString (caller env_bob') ∉ Proposal.voters proposal2) as Hv
    by apply not_elem_of_nil.
  cbn [snd].
  rewrite (voteYes_fresh X env_bob' store2 proposal2 H2 Ho Hv).
  repeat split.
  - eexists. repeat split.
  - cbn. tauto.
  - cbn. intros Heq.
    assert (<[X := proposal2]> store2 !! X = Some proposal2) as Hl.
    { by rewrite insert_id. }
    rewrite <- Heq, lookup_insert_eq in H2. discriminate H2.
Qed.

(** C8 (the code departs from it): the claim is that [updateProposal] by the
    owner rejects an empty title or description as [createProposal] does.
    Alice, the owner, updates her proposal with an empty title and an empty
    description: the call succeeds and the stored record has both empty,
    whereas [createProposal] refuses the same payload. *)
Theorem updateProposal_accepts_empty_fields :
  let payload := ProposalPayload.mk "" "" in
  let env := mkEnv alice 400%N "c9bf9e57-1685-4c89-bafb-ff5af830be8a" in
  store1 !! X = Some proposal1
  ∧ caller env = Proposal.owner proposal1
  ∧ fails_with InvalidInput (createProposal payload env store1).1
  ∧ ∃ p', updateProposal X payload env store1 = (Ok p', <[X := p']> store1)
          ∧ Proposal.title p' = ""
          ∧ Proposal.description p' = ""
          ∧ (updateProposal X payload env store1).2 ≠ store1.
Proof.
  cbn zeta.
  assert (store1 !! X = Some proposal1) as H1.
  { rewrite store1_eq. apply lookup_singleton_eq. }
  split; [done |]. split; [done |]. split.
  - by rewrite createProposal_invalid by (by left).
  - eexists.
    rewrite (updateProposal_owner X _ _ store1 proposal1 H1) by done.
    repeat split. cbn. intros Heq.
    rewrite <- Heq, lookup_insert_eq in H1. discriminate H1.
Qed.

(** C4: when the caller is the stored owner of a stored proposal, [voteYes]
    and [voteNo] on its id fail with [Forbidden], whatever votes the
    proposal already records, and the store is left as it was. *)
Theorem owner_vote_is_Forbidden id env (st : gmap string Proposal.t) p :
  st !! id = Some p →
  caller env = Proposal.owner p →
  (fails_with Forbidden (voteYes id env st).1 ∧ (voteYes id env st).2 = st)
  ∧ (fails_with Forbidden (voteNo id env st).1 ∧ (voteNo id env st).2 = st).
Proof.
  intros Hp Hc.
  assert (toString (Proposal.owner p) = toString (caller env)) as Ho
    by (by rewrite Hc).
  destruct (vote_owner id env st p Hp Ho) as [-> ->].
  by cbn.
Qed.

Lemma owner_vote_is_Forbidden_witness :
  store2 !! X = Some proposal2
  ∧ caller env_alice = Proposal.owner proposal2
  ∧ (fails_with Forbidden (voteYes X env_alice store2).1
     ∧ (voteYes X env_alice store2).2 = store2)
  ∧ (fails_with Forbidden (voteNo X env_alice store2).1
     ∧ (voteNo X env_alice store2).2 = store2).
Proof.
  split; [vm_compute; reflexivity |].
  split; [reflexivity |].
  apply (owner_vote_is_Forbidden X env_alice store2 proposal2).
  - vm_compute; reflexivity.
  - reflexivity.
Defined.

(** C5, as the claim states it, fails: the claim is that a successful
    [createProposal] stores a new record with a fresh id. The id is the one
    [uuidv4] hands over, and the function does not look whether it is in
    use. On the reachable store that holds Alice's voted-on proposal under
    [X], a valid [createProposal] in a call context whose [uuidv4] yields [X]
    again succeeds with a record whose id is the key already taken; it
    replaces the stored proposal and the store holds no more records than
    before. *)
Lemma createProposal_id_not_fresh :
  reachable store2
  ∧ ¬ (ProposalPayload.title payload_TD = ""
       ∨ ProposalPayload.description payload_TD = "")
  ∧ ∃ p, createProposal payload_TD env_alice store2
         = (Ok p, <[X := p]> store2)
         ∧ store2 !! Proposal.id p = Some proposal2
         ∧ p ≠ proposal2
         ∧ size (createProposal payload_TD env_alice store2).2 = size store2.
Proof.
  assert (store2 !! X = Some proposal2) as H2 by (vm_compute; reflexivity).
  split; [apply reachable_store2 |].
  split; [intros [H | H]; discriminate H |].
  eexists.
  rewrite (createProposal_valid payload_TD env_alice store2) by discriminate.
  cbn [fst snd]. split; [reflexivity |].
  split; [exact H2 |].
  split; [unfold proposal2; discriminate |].
  apply map_size_insert_Some. exists proposal2. exact H2.
Qed.

(** C5, amended: [createProposal] fails with [InvalidInput] and leaves the
    store as it was exactly when the title or the description is empty.
    Otherwise it succeeds: it stores, under the id that [uuidv4] produced,
    and returns the record with that id, whose owner is the caller, with the
    given title and description, no voters, both counters at zero,
    [created_at] the current time and no [updated_at]; every other key of
    the store keeps its record, and the store gains a record exactly when
    that id was not yet one of its keys. *)
Theorem createProposal_spec payload env (st : gmap string Proposal.t) :
  let title := ProposalPayload.title payload in
  let description := ProposalPayload.description payload in
  let result := createProposal payload env st in
  (fails_with InvalidInput result.1 ∧ result.2 = st
   ↔ title = "" ∨ description = "")
  ∧ (¬ (title = "" ∨ description = "") →
     let proposal := {|
       Proposal.owner := caller env;
       Proposal.id := uuid env;
       Proposal.title := title;
       Proposal.description := description;
       Proposal.voters := [];
       Proposal.yesVotes := 0%N;
       Proposal.noVotes := 0%N;
       Proposal.created_at := time env;
       Proposal.updated_at := None
     |} in
     result = (Ok proposal, <[Proposal.id proposal := proposal]> st)
     ∧ result.2 !! Proposal.id proposal = Some proposal
     ∧ (∀ k, k ≠ Proposal.id proposal → result.2 !! k = st !! k)
     ∧ size result.2
       = match st !! uuid env with
         | None => S (size st)
         | Some _ => size st
         end).
Proof.
  cbn zeta.
  destruct (decide (ProposalPayload.title payload = ""
                    ∨ ProposalPayload.description payload = "")) as [He | Hne].
  - rewrite (createProposal_invalid payload env st He). cbn. tauto.
  - assert (ProposalPayload.title payload ≠ "") as Ht by tauto.
    assert (ProposalPayload.description payload ≠ "") as Hd by tauto.
    rewrite (createProposal_valid payload env st Ht Hd). cbn.
    split; [tauto |].
    intros _. split; [done |].
    split; [apply lookup_insert_eq |].
    split.
    + intros k Hk. by apply lookup_insert_ne.
    + destruct (st !! uuid env) as [q |] eqn:E.
      * apply map_size_insert_Some. by rewrite E.
      * by apply map_size_insert_None.
Qed.

Lemma createProposal_spec_witness :
  ¬ (ProposalPayload.title payload_TD = ""
     ∨ ProposalPayload.description payload_TD = "")
  ∧ createProposal payload_TD env_bob store1
    = (Ok (Proposal.mk bob (uuid env_bob) "T" "D" [] 0%N 0%N 200%N None),
       <[uuid env_bob := Proposal.mk bob (uuid env_bob) "T" "D" [] 0%N 0%N 200%N None]>
         store1)
  ∧ (createProposal payload_TD env_bob store1).2 !! X = store1 !! X
  ∧ size (createProposal payload_TD env_bob store1).2
    = match store1 !! uuid env_bob with
      | None => S (size store1)
      | Some _ => size store1
      end.
Proof.
  assert (¬ (ProposalPayload.title payload_TD = ""
             ∨ ProposalPayload.description payload_TD = "")) as Hne.
  { cbn. intros [H | H]; discriminate H. }
  destruct (createProposal_spec payload_TD env_bob store1) as [_ H].
  destruct (H Hne) as (Heq & _ & Hother & Hsize).
  assert (X ≠ uuid env_bob) as HX by discriminate.
  exact (conj Hne (conj Heq (conj (Hother X HX) Hsize))).
Defined.

(** C6: for a proposal stored under [id], [updateProposal] by a caller other
    than its owner fails with [Forbidden] and leaves the store, hence the
    stored title and description, as it was; by the owner it succeeds,
    storing under [id] and returning the record with the supplied title and
    description and [updated_at] set to the current time, its id, owner,
    voters, counters and [created_at] being those of the stored record. *)
Theorem updateProposal_spec id payload env (st : gmap string Proposal.t) p :
  reachable st →
  st !! id = Some p →
  let result := updateProposal id payload env st in
  (caller env ≠ Proposal.owner p →
   fails_with Forbidden result.1
   ∧ result.2 = st
   ∧ result.2 !! id = Some p)
  ∧ (caller env = Proposal.owner p →
     let updatedProposal := {|
       Proposal.owner := Proposal.owner p;
       Proposal.id := id;
       Proposal.title := ProposalPayload.title payload;
       Proposal.description := ProposalPayload.description payload;
       Proposal.voters := Proposal.voters p;
       Proposal.yesVotes := Proposal.yesVotes p;
       Proposal.noVotes := Proposal.noVotes p;
       Proposal.created_at := Proposal.created_at p;
       Proposal.updated_at := Some (time env)
     |} in
     Proposal.id p = id
     ∧ result = (Ok updatedProposal, <[id := updatedProposal]> st)
     ∧ result.2 !! id = Some updatedProposal).
Proof.
  intros Hr Hp. cbn zeta.
  pose proof (reachable_id st id p Hr Hp) as Hid.
  split.
  - intros Hne.
    assert (toString (Proposal.owner p) ≠ toString (caller env)) as Ho.
    { intros Heq. apply toString_inj in Heq. congruence. }
    rewrite (updateProposal_other id payload env st p Hp Ho). by cbn.
  - intros Hc.
    assert (toString (Proposal.owner p) = toString (caller env)) as Ho
      by (by rewrite Hc).
    rewrite (updateProposal_owner id payload env st p Hp Ho).
    rewrite Hid. cbn.
    split; [done |]. split; [done |]. apply lookup_insert_eq.
Qed.

Lemma updateProposal_spec_witness :
  reachable store2
  ∧ store2 !! X = Some proposal2
  ∧ caller env_bob ≠ Proposal.owner proposal2
  ∧ caller env_alice = Proposal.owner proposal2
  ∧ (updateProposal X (ProposalPayload.mk "T2" "D2") env_bob store2).2 = store2
  ∧ (updateProposal X (ProposalPayload.mk "T2" "D2") env_alice store2).2 !! X
    = Some (Proposal.mk alice X "T2" "D2" [] 1%N 0%N 100%N (Some 100%N)).
Proof.
  assert (store2 !! X = Some proposal2) as H2 by (vm_compute; reflexivity).
  assert (caller env_bob ≠ Proposal.owner proposal2) as Hb by discriminate.
  assert (caller env_alice = Proposal.owner proposal2) as Ha by reflexivity.
  split; [exact reachable_store2 |].
  split; [exact H2 |]. split; [exact Hb |]. split; [exact Ha |].
  split.
  - exact (proj1 (proj2 (proj1
      (updateProposal_spec X (ProposalPayload.mk "T2" "D2") env_bob store2
         proposal2 reachable_store2 H2) Hb))).
  - exact (proj2 (proj2 (proj2
      (updateProposal_spec X (ProposalPayload.mk "T2" "D2") env_alice store2
         proposal2 reachable_store2 H2) Ha))).
Defined.

(** C7: [deleteProposal] on an id present in the store removes the record
    and returns it, whoever the caller is, and [getProposal] on that id then
    fails with [NotFound]; on an id absent from the store it fails with
    [NotFound] and leaves the store as it was. *)
Theorem deleteProposal_spec id env env' (st : gmap string Proposal.t) :
  let result := deleteProposal id env st in
  (∀ p, st !! id = Some p →
     result = (Ok p, delete id st)
     ∧ result.2 !! id = None
     ∧ fails_with NotFound (getProposal id env' result.2).1)
  ∧ (st !! id = None →
     fails_with NotFound result.1 ∧ result.2 = st).
Proof.
  cbn zeta. split.
  - intros p Hp. rewrite (deleteProposal_Some id env st p Hp). cbn.
    split; [done |]. split; [apply lookup_delete_eq |].
    rewrite getProposal_None by apply lookup_delete_eq. by cbn.
  - intros Hp. rewrite (deleteProposal_None id env st Hp). by cbn.
Qed.

Lemma deleteProposal_spec_witness :
  store2 !! X = Some proposal2
  ∧ caller env_bob ≠ Proposal.owner proposal2
  ∧ deleteProposal X env_bob store2 = (Ok proposal2, delete X store2)
  ∧ fails_with NotFound
      (getProposal X env_alice (deleteProposal X env_bob store2).2).1
  ∧ (∅ : gmap string Proposal.t) !! X = None
  ∧ fails_with NotFound (deleteProposal X env_bob ∅).1
  ∧ (deleteProposal X env_bob ∅).2 = ∅.
Proof.
  assert (store2 !! X = Some proposal2) as H2 by (vm_compute; reflexivity).
  assert ((∅ : gmap string Proposal.t) !! X = None) as H0 by reflexivity.
  destruct (deleteProposal_spec X env_bob env_alice store2) as [Hs _].
  destruct (Hs proposal2 H2) as (Hdel & _ & Hget).
  destruct (deleteProposal_spec X env_bob env_alice ∅) as [_ Hn].
  destruct (Hn H0) as [Hfail Hsame].
  split; [exact H2 |]. split; [discriminate |].
  split; [exact Hdel |]. split; [exact Hget |].
  split; [exact H0 |]. split; [exact Hfail | exact Hsame].
Defined.

(** C9: whatever the call, its arguments, its caller and the store it starts
    from, a call that returns an error leaves the store as it was. *)
Theorem failed_call_keeps_store c env (st : gmap string Proposal.t) :
  reply_is_Err (dispatch c env st).1 = true →
  (dispatch c env st).2 = st.
Proof.
  destruct c; unfold dispatch, fmap, M_fmap; run.
  - done.
  - by destruct (st !! id).
  - by destruct (falsy _ || falsy _).
  - destruct (st !! id) as [p |]; cbn; [| done].
    case_bool_decide; cbn; [done |].
    by destruct (includes _ _).
  - destruct (st !! id) as [p |]; cbn; [| done].
    case_bool_decide; cbn; [done |].
    by destruct (includes _ _).
  - destruct (st !! id) as [p |]; cbn; [| done].
    by case_bool_decide.
  - destruct (st !! id) as [p |] eqn:E; cbn; [done |].
    intros _. by apply delete_id.
Qed.

Lemma failed_call_keeps_store_witness :
  reply_is_Err (dispatch (call_voteYes X) env_alice store2).1 = true
  ∧ (dispatch (call_voteYes X) env_alice store2).2 = store2.
Proof.
  assert (reply_is_Err (dispatch (call_voteYes X) env_alice store2).1 = true)
    as H by (vm_compute; reflexivity).
  exact (conj H (failed_call_keeps_store (call_voteYes X) env_alice store2 H)).
Defined.

(** C10: in every reachable store each key maps to a record whose [id] is
    that key; [createProposal], [voteYes], [voteNo] and [updateProposal],
    when they succeed, insert the record they return under that record's own
    [id]. *)
Theorem stored_under_own_id (st : gmap string Proposal.t) :
  reachable st →
  (∀ k p, st !! k = Some p → Proposal.id p = k)
  ∧ (∀ c env p',
       writes_record c = true →
       (dispatch c env st).1 = reply_one (Ok p') →
       (dispatch c env st).2 = <[Proposal.id p' := p']> st).
Proof.
  intros Hr. split.
  - intros k p. by apply reachable_id.
  - intros c env p' Hw.
    destruct c; try discriminate Hw; unfold dispatch, fmap, M_fmap; run.
    + destruct (falsy _ || falsy _); cbn; [done |].
      by intros [= <-].
    + destruct (st !! id) as [p |]; cbn; [| done].
      case_bool_decide; cbn; [done |].
      destruct (includes _ _); cbn; [done |].
      by intros [= <-].
    + destruct (st !! id) as [p |]; cbn; [| done].
      case_bool_decide; cbn; [done |].
      destruct (includes _ _); cbn; [done |].
      by intros [= <-].
    + destruct (st !! id) as [p |]; cbn; [| done].
      case_bool_decide; cbn; [| done].
      by intros [= <-].
Qed.

Lemma stored_under_own_id_witness :
  reachable store2
  ∧ store2 !! X = Some proposal2
  ∧ Proposal.id proposal2 = X.
Proof.
  assert (store2 !! X = Some proposal2) as H2 by (vm_compute; reflexivity).
  exact (conj reachable_store2
           (conj H2 (proj1 (stored_under_own_id store2 reachable_store2)
                       X proposal2 H2))).
Defined.

(** * Further properties of the registry *)

Lemma number_succ_le (x : number) : (x ≤ number_succ x)%N.
Proof.
  unfold number_succ. destruct (N.ltb_spec x (2 ^ 53)); lia.
Qed.

Lemma dispatch_write_insert c env (st : gmap string Proposal.t) p' :
  writes_record c = true →
  (dispatch c env st).1 = reply_one (Ok p') →
  (dispatch c env st).2 = <[Proposal.id p' := p']> st.
Proof.
  intros Hw.
  destruct c; try discriminate Hw; unfold dispatch, fmap, M_fmap; run.
  - destruct (falsy _ || falsy _); cbn; [done |]. by intros [= <-].
  - destruct (st !! id) as [p |]; cbn; [| done].
    case_bool_decide; cbn; [done |].
    destruct (includes _ _); cbn; [done |]. by intros [= <-].
  - destruct (st !! id) as [p |]; cbn; [| done].
    case_bool_decide; cbn; [done |].
    destruct (includes _ _); cbn; [done |]. by intros [= <-].
  - destruct (st !! id) as [p |]; cbn; [| done].
    case_bool_decide; cbn; [| done]. by intros [= <-].
Qed.

Lemma dispatch_write_target c env (st : gmap string Proposal.t) p' :
  reachable st →
  writes_record c = true →
  (dispatch c env st).1 = reply_one (Ok p') →
  target c env = Some (Proposal.id p').
Proof.
  intros Hr Hw.
  destruct c; try discriminate Hw; unfold dispatch, fmap, M_fmap; run.
  - destruct (falsy _ || falsy _); cbn; [done |]. by intros [= <-].
  - destruct (st !! id) as [p |] eqn:E; cbn; [| done].
    case_bool_decide; cbn; [done |].
    destruct (includes _ _); cbn; [done |].
    intros [= <-]. cbn. by rewrite (reachable_id st id p Hr E).
  - destruct (st !! id) as [p |] eqn:E; cbn; [| done].
    case_bool_decide; cbn; [done |].
    destruct (includes _ _); cbn; [done |].
    intros [= <-]. cbn. by rewrite (reachable_id st id p Hr E).
  - destruct (st !! id) as [p |] eqn:E; cbn; [| done].
    case_bool_decide; cbn; [| done].
    intros [= <-]. cbn. by rewrite (reachable_id st id p Hr E).
Qed.

(** X1: a successful [createProposal], [voteYes], [voteNo] or
    [updateProposal] is visible at once: the record it returns carries the id
    the call addressed, and [getProposal] on that id, by any caller, returns
    that very record and leaves the store as it is. *)
Theorem write_then_getProposal c env env' (st : gmap string Proposal.t) p' :
  reachable st →
  writes_record c = true →
  (dispatch c env st).1 = reply_one (Ok p') →
  target c env = Some (Proposal.id p')
  ∧ getProposal (Proposal.id p') env' (dispatch c env st).2
    = (Ok p', (dispatch c env st).2).
Proof.
  intros Hr Hw Hok. split.
  - by apply (dispatch_write_target c env st).
  - apply getProposal_Some.
    rewrite (dispatch_write_insert c env st p' Hw Hok).
    apply lookup_insert_eq.
Qed.

Lemma write_then_getProposal_witness :
  target (call_voteYes X) env_bob = Some (Proposal.id proposal2)
  ∧ getProposal (Proposal.id proposal2) env_carol
      (dispatch (call_voteYes X) env_bob store1).2
    = (Ok proposal2, (dispatch (call_voteYes X) env_bob store1).2).
Proof.
  apply (write_then_getProposal (call_voteYes X) env_bob env_carol store1
           proposal2 reachable_store1).
  - reflexivity.
  - vm_compute; reflexivity.
Defined.

Lemma reachable_listed_ids (st : gmap string Proposal.t) :
  reachable st →
  Proposal.id <$> (map_to_list st).*2 = (map_to_list st).*1.
Proof.
  intros Hr. rewrite <- list_fmap_compose.
  apply list_fmap_ext. intros i [k p] Hi. cbn.
  apply (reachable_id st k p Hr).
  apply elem_of_map_to_list. by eapply list_elem_of_lookup_2.
Qed.

Lemma reachable_listed (st : gmap string Proposal.t) p :
  reachable st →
  p ∈ (map_to_list st).*2 ↔ st !! Proposal.id p = Some p.
Proof.
  intros Hr. rewrite list_elem_of_fmap. split.
  - intros ([k q] & -> & Hkq). cbn.
    apply elem_of_map_to_list in Hkq.
    by rewrite (reachable_id st k q Hr Hkq).
  - intros Hp. exists (Proposal.id p, p). split; [done |].
    by apply elem_of_map_to_list.
Qed.

(** X2: in every reachable store [getProposals] succeeds and leaves the
    store as it is; it lists one record per key, no two listed records share
    an id, and a record is listed exactly when [getProposal] on its id
    returns it. *)
Theorem getProposals_lists_the_store env (st : gmap string Proposal.t) :
  reachable st →
  ∃ ps, getProposals env st = (Ok ps, st)
        ∧ length ps = size st
        ∧ NoDup (Proposal.id <$> ps)
        ∧ ∀ p, p ∈ ps ↔ getProposal (Proposal.id p) env st = (Ok p, st).
Proof.
  intros Hr. exists (map_to_list st).*2.
  split; [done |].
  split; [by rewrite length_fmap, length_map_to_list |].
  split.
  - rewrite (reachable_listed_ids st Hr). apply NoDup_fst_map_to_list.
  - intros p. rewrite (reachable_listed st p Hr). split.
    + apply getProposal_Some.
    + intros Hg. destruct (st !! Proposal.id p) as [q |] eqn:E.
      * rewrite (getProposal_Some _ env st q E) in Hg. congruence.
      * rewrite (getProposal_None _ env st E) in Hg. discriminate Hg.
Qed.

Lemma getProposals_lists_the_store_witness :
  ∃ ps, getProposals env_carol store2 = (Ok ps, store2)
        ∧ length ps = size store2
        ∧ NoDup (Proposal.id <$> ps)
        ∧ ∀ p, p ∈ ps ↔ getProposal (Proposal.id p) env_carol store2
                         = (Ok p, store2).
Proof.
  exact (getProposals_lists_the_store env_carol store2 reachable_store2).
Defined.

(** X3: a call reads and writes the store only at the key it addresses: in
    every reachable store, every other key maps after the call to what it
    mapped to before. *)
Theorem call_leaves_other_keys c env (st : gmap string Proposal.t) k :
  reachable st →
  target c env ≠ Some k →
  (dispatch c env st).2 !! k = st !! k.
Proof.
  intros Hr Hk.
  destruct c; unfold dispatch, fmap, M_fmap; cbn in Hk; run.
  - done.
  - by destruct (st !! id).
  - destruct (falsy _ || falsy _); cbn; [done |].
    apply lookup_insert_ne. congruence.
  - destruct (st !! id) as [p |] eqn:E; cbn; [| done].
    case_bool_decide; cbn; [done |].
    destruct (includes _ _); cbn; [done |].
    rewrite (reachable_id st id p Hr E).
    apply lookup_insert_ne. congruence.
  - destruct (st !! id) as [p |] eqn:E; cbn; [| done].
    case_bool_decide; cbn; [done |].
    destruct (includes _ _); cbn; [done |].
    rewrite (reachable_id st id p Hr E).
    apply lookup_insert_ne. congruence.
  - destruct (st !! id) as [p |] eqn:E; cbn; [| done].
    case_bool_decide; cbn; [| done].
    rewrite (reachable_id st id p Hr E).
    apply lookup_insert_ne. congruence.
  - assert ((delete id st) !! k = st !! k) as Hd.
    { apply lookup_delete_ne. congruence. }
    by destruct (st !! id).
Qed.

Lemma call_leaves_other_keys_witness :
  (dispatch (call_deleteProposal (uuid env_carol)) env_bob store2).2 !! X
  = store2 !! X.
Proof.
  apply (call_leaves_other_keys (call_deleteProposal (uuid env_carol))
           env_bob store2 X reachable_store2).
  discriminate.
Defined.

(** X4: no call rewrites the identity of a stored proposal or takes a vote
    back: in a reachable store, when a key holds a record before and after a
    call, the two records have the same [id], [owner] and [created_at], and
    neither counter has decreased. For [createProposal] this supposes that
    the id [uuidv4] produced is not yet a key of the store. *)
Theorem call_keeps_identity c env (st : gmap string Proposal.t) k p p' :
  reachable st →
  (∀ payload, c = call_createProposal payload → st !! uuid env = None) →
  st !! k = Some p →
  (dispatch c env st).2 !! k = Some p' →
  Proposal.id p' = Proposal.id p
  ∧ Proposal.owner p' = Proposal.owner p
  ∧ Proposal.created_at p' = Proposal.created_at p
  ∧ (Proposal.yesVotes p ≤ Proposal.yesVotes p')%N
  ∧ (Proposal.noVotes p ≤ Proposal.noVotes p')%N.
Proof.
  intros Hr Hc Hp.
  pose proof (reachable_id st k p Hr Hp) as Hidp.
  assert (Some p = Some p' →
          Proposal.id p' = Proposal.id p
          ∧ Proposal.owner p' = Proposal.owner p
          ∧ Proposal.created_at p' = Proposal.created_at p
          ∧ (Proposal.yesVotes p ≤ Proposal.yesVotes p')%N
          ∧ (Proposal.noVotes p ≤ Proposal.noVotes p')%N) as Hsame.
  { intros [= <-]. repeat split; lia. }
  destruct c; unfold dispatch, fmap, M_fmap; run.
  - by rewrite Hp.
  - destruct (st !! id); cbn; by rewrite Hp.
  - destruct (falsy _ || falsy _); cbn; [by rewrite Hp |].
    rewrite lookup_insert_ne, Hp; [done |].
    intros <-. rewrite (Hc payload eq_refl) in Hp. discriminate Hp.
  - destruct (st !! id) as [q |] eqn:E; cbn; [| by rewrite Hp].
    case_bool_decide; cbn; [by rewrite Hp |].
    destruct (includes _ _); cbn; [by rewrite Hp |].
    rewrite (reachable_id st id q Hr E).
    destruct (decide (id = k)) as [-> | Hne].
    + rewrite lookup_insert_eq. intros [= <-]. cbn.
      assert (q = p) as -> by congruence.
      repeat split; cbn; [done | apply number_succ_le | lia].
    + by rewrite lookup_insert_ne, Hp.
  - destruct (st !! id) as [q |] eqn:E; cbn; [| by rewrite Hp].
    case_bool_decide; cbn; [by rewrite Hp |].
    destruct (includes _ _); cbn; [by rewrite Hp |].
    rewrite (reachable_id st id q Hr E).
    destruct (decide (id = k)) as [-> | Hne].
    + rewrite lookup_insert_eq. intros [= <-]. cbn.
      assert (q = p) as -> by congruence.
      repeat split; cbn; [done | lia | apply number_succ_le].
    + by rewrite lookup_insert_ne, Hp.
  - destruct (st !! id) as [q |] eqn:E; cbn; [| by rewrite Hp].
    case_bool_decide; cbn; [| by rewrite Hp].
    rewrite (reachable_id st id q Hr E).
    destruct (decide (id = k)) as [-> | Hne].
    + rewrite lookup_insert_eq. intros [= <-]. cbn.
      assert (q = p) as -> by congruence.
      repeat split; cbn; [done | lia | lia].
    + by rewrite lookup_insert_ne, Hp.
  - assert (delete id st !! k = Some p' → Some p = Some p') as Hd.
    { intros Hd. apply lookup_delete_Some in Hd as [_ Hd]. congruence. }
    destruct (st !! id); cbn; auto.
Qed.

Lemma call_keeps_identity_witness :
  Proposal.id proposal2 = Proposal.id proposal1
  ∧ Proposal.owner proposal2 = Proposal.owner proposal1
  ∧ Proposal.created_at proposal2 = Proposal.created_at proposal1
  ∧ (Proposal.yesVotes proposal1 ≤ Proposal.yesVotes proposal2)%N
  ∧ (Proposal.noVotes proposal1 ≤ Proposal.noVotes proposal2)%N.
Proof.
  apply (call_keeps_identity (call_voteYes X) env_bob store1 X
           proposal1 proposal2 reachable_store1).
  - discriminate.
  - vm_compute; reflexivity.
  - vm_compute; reflexivity.
Defined.

(** X5: the keys of the store after a call: [deleteProposal] removes the id
    it is given, a successful [createProposal] adds the id [uuidv4]
    produced, and every other call, in particular every vote and every
    update on a reachable store, leaves the set of keys as it is. *)
Theorem call_key_set c env (st : gmap string Proposal.t) :
  reachable st →
  dom (dispatch c env st).2
  = match c with
    | call_createProposal _ =>
        if reply_is_Err (dispatch c env st).1 then dom st
        else {[uuid env]} ∪ dom st
    | call_deleteProposal id => dom st ∖ {[id]}
    | _ => dom st
    end.
Proof.
  intros Hr.
  destruct c; unfold dispatch, fmap, M_fmap; run.
  - done.
  - by destruct (st !! id).
  - destruct (falsy _ || falsy _); cbn; [done |]. apply dom_insert_L.
  - destruct (st !! id) as [p |] eqn:E; cbn; [| done].
    case_bool_decide; cbn; [done |].
    destruct (includes _ _); cbn; [done |].
    rewrite (reachable_id st id p Hr E).
    apply dom_insert_lookup_L. by rewrite E.
  - destruct (st !! id) as [p |] eqn:E; cbn; [| done].
    case_bool_decide; cbn; [done |].
    destruct (includes _ _); cbn; [done |].
    rewrite (reachable_id st id p Hr E).
    apply dom_insert_lookup_L. by rewrite E.
  - destruct (st !! id) as [p |] eqn:E; cbn; [| done].
    case_bool_decide; cbn; [| done].
    rewrite (reachable_id st id p Hr E).
    apply dom_insert_lookup_L. by rewrite E.
  - assert (dom (delete id st) = dom st ∖ {[id]}) as Hd by apply dom_delete_L.
    by destruct (st !! id).
Qed.

Lemma call_key_set_witness :
  dom (dispatch (call_voteNo X) env_carol store2).2 = dom store2.
Proof.
  exact (call_key_set (call_voteNo X) env_carol store2 reachable_store2).
Defined.

(** X6: each function that is given an id, [getProposal], [voteYes],
    [voteNo], [updateProposal] and [deleteProposal], fails with [NotFound]
    exactly when that id is not a key of the store, whoever calls and
    whatever the payload. *)
Theorem NotFound_iff_absent id payload env (st : gmap string Proposal.t) :
  (fails_with NotFound (getProposal id env st).1 ↔ st !! id = None)
  ∧ (fails_with NotFound (voteYes id env st).1 ↔ st !! id = None)
  ∧ (fails_with NotFound (voteNo id env st).1 ↔ st !! id = None)
  ∧ (fails_with NotFound (updateProposal id payload env st).1
     ↔ st !! id = None)
  ∧ (fails_with NotFound (deleteProposal id env st).1 ↔ st !! id = None).
Proof.
  destruct (st !! id) as [p |] eqn:E.
  - assert (∀ P : Prop, ¬ P → (P ↔ Some p = None)) as Hno.
    { intros P HP. split; [done | discriminate]. }
    rewrite (getProposal_Some id env st p E).
    rewrite (deleteProposal_Some id env st p E).
    repeat split; try discriminate; try (cbn; tauto).
    + run. rewrite E. cbn.
      case_bool_decide; cbn; [discriminate |].
      destruct (includes _ _); cbn; [discriminate | tauto].
    + run. rewrite E. cbn.
      case_bool_decide; cbn; [discriminate |].
      destruct (includes _ _); cbn; [discriminate | tauto].
    + run. rewrite E. cbn.
      case_bool_decide; cbn; [tauto | discriminate].
  - rewrite (getProposal_None id env st E).
    destruct (vote_None id env st E) as [-> ->].
    rewrite (updateProposal_None id payload env st E).
    rewrite (deleteProposal_None id env st E).
    by cbn.
Qed.

(** X7: no reachable store lists a voter: the [voters] of every stored
    proposal is empty, since [createProposal] starts it empty and no function
    writes to it. *)
Theorem voters_stay_empty (st : gmap string Proposal.t) k p :
  reachable st → st !! k = Some p → Proposal.voters p = [].
Proof. apply reachable_voters. Qed.

Lemma voters_stay_empty_witness : Proposal.voters proposal2 = [].
Proof.
  apply (voters_stay_empty store2 X proposal2 reachable_store2).
  vm_compute; reflexivity.
Defined.

(** X8: on a reachable store, a vote on a stored proposal by anyone but its
    owner succeeds, whether or not that caller voted on it before:
    [voteYes] (respectively [voteNo]) stores under the same id and returns
    the record with [yesVotes] (respectively [noVotes]) stepped and
    [updated_at] set to the current time, every other field being kept. *)
Theorem non_owner_vote_succeeds id env (st : gmap string Proposal.t) p :
  reachable st →
  st !! id = Some p →
  caller env ≠ Proposal.owner p →
  let yes := {|
    Proposal.owner := Proposal.owner p;
    Proposal.id := id;
    Proposal.title := Proposal.title p;
    Proposal.description := Proposal.description p;
    Proposal.voters := Proposal.voters p;
    Proposal.yesVotes := number_succ (Proposal.yesVotes p);
    Proposal.noVotes := Proposal.noVotes p;
    Proposal.created_at := Proposal.created_at p;
    Proposal.updated_at := Some (time env)
  |} in
  let no := {|
    Proposal.owner := Proposal.owner p;
    Proposal.id := id;
    Proposal.title := Proposal.title p;
    Proposal.description := Proposal.description p;
    Proposal.voters := Proposal.voters p;
    Proposal.yesVotes := Proposal.yesVotes p;
    Proposal.noVotes := number_succ (Proposal.noVotes p);
    Proposal.created_at := Proposal.created_at p;
    Proposal.updated_at := Some (time env)
  |} in
  voteYes id env st = (Ok yes, <[id := yes]> st)
  ∧ voteNo id env st = (Ok no, <[id := no]> st).
Proof.
  intros Hr Hp Hne. cbn zeta.
  assert (toString (Proposal.owner p) ≠ toString (caller env)) as Ho.
  { intros Heq. apply toString_inj in Heq. congruence. }
  assert (toString (caller env) ∉ Proposal.voters p) as Hv.
  { rewrite (reachable_voters st id p Hr Hp). apply not_elem_of_nil. }
  rewrite (voteYes_fresh id env st p Hp Ho Hv).
  rewrite (voteNo_fresh id env st p Hp Ho Hv).
  by rewrite (reachable_id st id p Hr Hp).
Qed.

Lemma non_owner_vote_succeeds_witness :
  voteYes X env_bob' store2
  = (Ok (Proposal.mk alice X "T" "D" [] 2%N 0%N 100%N (Some 300%N)),
     <[X := Proposal.mk alice X "T" "D" [] 2%N 0%N 100%N (Some 300%N)]> store2)
  ∧ voteNo X env_bob' store2
    = (Ok (Proposal.mk alice X "T" "D" [] 1%N 1%N 100%N (Some 300%N)),
       <[X := Proposal.mk alice X "T" "D" [] 1%N 1%N 100%N (Some 300%N)]>
         store2).
Proof.
  apply (non_owner_vote_succeeds X env_bob' store2 proposal2 reachable_store2).
  - vm_compute; reflexivity.
  - discriminate.
Defined.

Lemma dispatch_untouched_ok c env st :
  map_Forall untouched_ok st → map_Forall untouched_ok (dispatch c env st).2.
Proof.
  intros Hst. destruct c; unfold dispatch, fmap, M_fmap; run.
  - done.
  - by destruct (st !! id).
  - destruct (falsy _ || falsy _); cbn; [done |].
    apply map_Forall_insert_2; [| done]. by intros _.
  - destruct (st !! id) as [p |]; cbn; [| done].
    case_bool_decide; cbn; [done |].
    destruct (includes _ _); cbn; [done |].
    apply map_Forall_insert_2; [| done]. intros H'. discriminate H'.
  - destruct (st !! id) as [p |]; cbn; [| done].
    case_bool_decide; cbn; [done |].
    destruct (includes _ _); cbn; [done |].
    apply map_Forall_insert_2; [| done]. intros H'. discriminate H'.
  - destruct (st !! id) as [p |]; cbn; [| done].
    case_bool_decide; cbn; [| done].
    apply map_Forall_insert_2; [| done]. intros H'. discriminate H'.
  - destruct (st !! id) as [p |] eqn:E; cbn.
    + by apply map_Forall_delete.
    + by rewrite delete_id.
Qed.

(** X9: in every reachable store, a proposal whose [updated_at] is absent
    has no vote: every successful vote stamps [updated_at], and nothing
    clears it. *)
Theorem unstamped_proposal_has_no_vote (st : gmap string Proposal.t) k p :
  reachable st →
  st !! k = Some p →
  Proposal.updated_at p = None →
  Proposal.yesVotes p = 0%N ∧ Proposal.noVotes p = 0%N.
Proof.
  intros Hr. revert k p.
  change (map_Forall untouched_ok st).
  induction Hr as [| st env c _ IH].
  - apply map_Forall_empty.
  - by apply dispatch_untouched_ok.
Qed.

Lemma unstamped_proposal_has_no_vote_witness :
  Proposal.yesVotes proposal1 = 0%N ∧ Proposal.noVotes proposal1 = 0%N.
Proof.
  apply (unstamped_proposal_has_no_vote store1 X proposal1 reachable_store1).
  - vm_compute; reflexivity.
  - reflexivity.
Defined.

(** X10: [deleteProposal] undoes [createProposal]: when the id [uuidv4]
    produced was not yet a key of the store, deleting the record that
    [createProposal] returned, by any caller, returns that record and gives
    back the store as it was before the creation. *)
Theorem delete_undoes_create payload env env' (st : gmap string Proposal.t) p :
  st !! uuid env = None →
  (createProposal payload env st).1 = Ok p →
  deleteProposal (Proposal.id p) env' (createProposal payload env st).2
  = (Ok p, st).
Proof.
  intros Hfresh. run.
  destruct (falsy _ || falsy _); cbn; [done |].
  intros [= <-]. cbn.
  rewrite lookup_insert_eq. cbn.
  by rewrite delete_insert_eq, delete_id.
Qed.

Lemma delete_undoes_create_witness :
  deleteProposal (uuid env_carol) env_bob
    (createProposal payload_TD env_carol store2).2
  = (Ok (Proposal.mk carol (uuid env_carol) "T" "D" [] 0%N 0%N 500%N None),
     store2).
Proof.
  apply (delete_undoes_create payload_TD env_carol env_bob store2
           (Proposal.mk carol (uuid env_carol) "T" "D" [] 0%N 0%N 500%N None)).
  - vm_compute; reflexivity.
  - vm_compute; reflexivity.
Defined.

(** X11: deleting twice: whatever the first [deleteProposal] on an id did,
    a second one on the same id fails with [NotFound] and changes nothing. *)
Theorem second_delete_is_NotFound id env env' (st : gmap string Proposal.t) :
  let st' := (deleteProposal id env st).2 in
  fails_with NotFound (deleteProposal id env' st').1
  ∧ (deleteProposal id env' st').2 = st'.
Proof.
  cbn zeta.
  assert ((deleteProposal id env st).2 !! id = None) as Hgone.
  { run. destruct (st !! id); cbn; apply lookup_delete_eq. }
  rewrite (deleteProposal_None id env' _ Hgone). by cbn.
Qed.

(** X12: [createProposal] does not look whether the id it was handed is in
    use: when [uuidv4] produces an id that is already a key of the store and
    the payload is valid, the call still succeeds and the new record, with no
    vote, replaces the one that was stored under that id; the store keeps its
    size. *)
Theorem createProposal_replaces_taken_id payload env
    (st : gmap string Proposal.t) q :
  st !! uuid env = Some q →
  ProposalPayload.title payload ≠ "" →
  ProposalPayload.description payload ≠ "" →
  ∃ p, createProposal payload env st = (Ok p, <[uuid env := p]> st)
       ∧ (createProposal payload env st).2 !! uuid env = Some p
       ∧ Proposal.owner p = caller env
       ∧ Proposal.yesVotes p = 0%N
       ∧ Proposal.noVotes p = 0%N
       ∧ size (createProposal payload env st).2 = size st.
Proof.
  intros Hq Ht Hd. eexists.
  rewrite (createProposal_valid payload env st Ht Hd). cbn.
  split; [done |]. split; [apply lookup_insert_eq |].
  repeat split. apply map_size_insert_Some. by rewrite Hq.
Qed.

Lemma createProposal_replaces_taken_id_witness :
  ∃ p, createProposal payload_TD env_alice store2
       = (Ok p, <[uuid env_alice := p]> store2)
       ∧ (createProposal payload_TD env_alice store2).2 !! uuid env_alice
         = Some p
       ∧ Proposal.owner p = caller env_alice
       ∧ Proposal.yesVotes p = 0%N
       ∧ Proposal.noVotes p = 0%N
       ∧ size (createProposal payload_TD env_alice store2).2 = size store2.
Proof.
  apply (createProposal_replaces_taken_id payload_TD env_alice store2 proposal2).
  - vm_compute; reflexivity.
  - discriminate.
  - discriminate.
Defined.

(** X13: the errors of each function: a call that returns an error returns
    one of the kinds its body can produce. [getProposals] never fails;
    [getProposal] and [deleteProposal] fail only with [NotFound];
    [createProposal] only with [InvalidInput]; [voteYes] and [voteNo] only
    with [NotFound], [Forbidden] or [AlreadyVoted]; [updateProposal] only
    with [NotFound] or [Forbidden]. *)
Theorem call_error_kinds c env (st : gmap string Proposal.t) :
  reply_is_Err (dispatch c env st).1 = true →
  ∃ k, reply_error_kind (dispatch c env st).1 = Some k
       ∧ k ∈ may_fail_with c.
Proof.
  destruct c; unfold dispatch, fmap, M_fmap; run.
  - done.
  - destruct (st !! id); cbn; [done |].
    intros _. exists NotFound. split; [done | set_solver].
  - destruct (falsy _ || falsy _); cbn; [| done].
    intros _. exists InvalidInput. split; [done | set_solver].
  - destruct (st !! id) as [p |]; cbn.
    + case_bool_decide; cbn.
      * intros _. exists Forbidden. split; [done | set_solver].
      * destruct (includes _ _); cbn; [| done].
        intros _. exists AlreadyVoted. split; [done | set_solver].
    + intros _. exists NotFound. split; [done | set_solver].
  - destruct (st !! id) as [p |]; cbn.
    + case_bool_decide; cbn.
      * intros _. exists Forbidden. split; [done | set_solver].
      * destruct (includes _ _); cbn; [| done].
        intros _. exists AlreadyVoted. split; [done | set_solver].
    + intros _. exists NotFound. split; [done | set_solver].
  - destruct (st !! id) as [p |]; cbn.
    + case_bool_decide; cbn; [done |].
      intros _. exists Forbidden. split; [done | set_solver].
    + intros _. exists NotFound. split; [done | set_solver].
  - destruct (st !! id); cbn; [done |].
    intros _. exists NotFound. split; [done | set_solver].
Qed.

Lemma call_error_kinds_witness :
  ∃ k, reply_error_kind
         (dispatch (call_updateProposal X payload_TD) env_bob store2).1
       = Some k
       ∧ k ∈ may_fail_with (call_updateProposal X payload_TD).
Proof.
  apply (call_error_kinds (call_updateProposal X payload_TD) env_bob store2).
  vm_compute; reflexivity.
Defined.

(** X14: a proposal that [createProposal] returned is among those
    [getProposals] returns right after it. *)
Theorem getProposals_after_create payload env env'
    (st : gmap string Proposal.t) p :
  (createProposal payload env st).1 = Ok p →
  ∃ ps, getProposals env' (createProposal payload env st).2
        = (Ok ps, (createProposal payload env st).2)
        ∧ p ∈ ps.
Proof.
  run. destruct (falsy _ || falsy _); cbn; [done |].
  intros [= <-]. eexists. split; [done |].
  apply list_elem_of_fmap. eexists (_, _). split; [done |].
  apply elem_of_map_to_list. apply lookup_insert_eq.
Qed.

Lemma getProposals_after_create_witness :
  ∃ ps, getProposals env_bob (createProposal payload_TD env_carol store2).2
        = (Ok ps, (createProposal payload_TD env_carol store2).2)
        ∧ Proposal.mk carol (uuid env_carol) "T" "D" [] 0%N 0%N 500%N None
          ∈ ps.
Proof.
  apply (getProposals_after_create payload_TD env_carol env_bob store2).
  vm_compute; reflexivity.
Defined.

(** X15: on a reachable store, a proposal that [deleteProposal] returned is
    no longer among those [getProposals] returns, which are one fewer than
    the store held before. *)
Theorem getProposals_after_delete id env env' (st : gmap string Proposal.t) p :
  reachable st →
  (deleteProposal id env st).1 = Ok p →
  ∃ ps, getProposals env' (deleteProposal id env st).2
        = (Ok ps, (deleteProposal id env st).2)
        ∧ (p ∉ ps)
        ∧ S (length ps) = size st.
Proof.
  intros Hr. run.
  destruct (st !! id) as [q |] eqn:E; cbn; [| done].
  intros [= <-]. eexists. split; [done |]. split.
  - rewrite list_elem_of_fmap. intros ([k q'] & Heq & Hin). cbn in Heq.
    subst q'. apply elem_of_map_to_list in Hin.
    apply lookup_delete_Some in Hin as [Hne Hk].
    rewrite <- (reachable_id st k q Hr Hk) in Hne.
    by rewrite (reachable_id st id q Hr E) in Hne.
  - rewrite length_fmap, length_map_to_list.
    rewrite map_size_delete_Some by (by rewrite E).
    assert (size st ≠ 0) as Hpos.
    { intros H0. apply map_size_empty_iff in H0. by rewrite H0 in E. }
    lia.
Qed.

Lemma getProposals_after_delete_witness :
  ∃ ps, getProposals env_alice (deleteProposal X env_bob store2).2
        = (Ok ps, (deleteProposal X env_bob store2).2)
        ∧ (proposal2 ∉ ps)
        ∧ S (length ps) = size store2.
Proof.
  apply (getProposals_after_delete X env_bob env_alice store2 proposal2
           reachable_store2).
  vm_compute; reflexivity.
Defined.

Lemma run_calls_reachable l (st : gmap string Proposal.t) :
  reachable st → reachable (run_calls l st).
Proof.
  revert st. induction l as [| [c env] l IH]; intros st Hr; [done |].
  apply IH. by apply reachable_call.
Qed.

Lemma count_ballots_cons b b' env l :
  count_ballots b ((b', env) :: l)
  = ((if bool_decide (b' = b) then 1 else 0) + count_ballots b l)%N.
Proof.
  unfold count_ballots. case_bool_decide.
  - rewrite filter_cons_True by done. cbn [length]. lia.
  - rewrite filter_cons_False by done. lia.
Qed.

Lemma tally_step (x n : N) :
  (x ≤ 2 ^ 53)%N →
  N.min (2 ^ 53) (number_succ x + n) = N.min (2 ^ 53) (x + (1 + n)).
Proof.
  unfold number_succ. intros Hx.
  destruct (N.ltb_spec x (2 ^ 53)); lia.
Qed.

(** X16: the tally. On a reachable store, after any sequence of [voteYes]
    and [voteNo] calls on a stored proposal by callers other than its owner,
    the proposal is still stored under its id with the same owner, title and
    description, and its counters have grown by the number of yes ballots
    and of no ballots, up to the bound [2^53] of a [number]. *)
Theorem votes_are_tallied id (ballots : list (bool * Env))
    (st : gmap string Proposal.t) p :
  reachable st →
  st !! id = Some p →
  Forall (λ ballot, caller ballot.2 ≠ Proposal.owner p) ballots →
  ∃ p', run_calls (vote_call id <$> ballots) st !! id = Some p'
        ∧ Proposal.owner p' = Proposal.owner p
        ∧ Proposal.title p' = Proposal.title p
        ∧ Proposal.description p' = Proposal.description p
        ∧ Proposal.yesVotes p'
          = N.min (2 ^ 53) (Proposal.yesVotes p + count_ballots true ballots)
        ∧ Proposal.noVotes p'
          = N.min (2 ^ 53) (Proposal.noVotes p + count_ballots false ballots).
Proof.
  revert st p.
  induction ballots as [| [b env] ballots IH]; intros st p Hr Hp Hall.
  - exists p. cbn. split; [done |].
    destruct (reachable_record_ok st Hr id p Hp) as (_ & _ & Hy & Hn).
    unfold count_ballots. cbn. repeat split; lia.
  - apply Forall_cons in Hall as [Hne Hall]. cbn in Hne.
    destruct (reachable_record_ok st Hr id p Hp) as (Hid & Hv & Hy & Hn).
    assert (toString (Proposal.owner p) ≠ toString (caller env)) as Ho.
    { intros Heq. apply toString_inj in Heq. congruence. }
    assert (toString (caller env) ∉ Proposal.voters p) as Hvo.
    { rewrite Hv. apply not_elem_of_nil. }
    rewrite fmap_cons. cbn [run_calls foldl].
    pose proof (reachable_call st env (vote_call id (b, env)).1 Hr) as Hr'.
    rewrite !count_ballots_cons.
    destruct b; cbn in Hr' |- *; unfold fmap, M_fmap in Hr' |- *.
    + rewrite (voteYes_fresh id env st p Hp Ho Hvo) in Hr' |- *.
      cbn in Hr' |- *. rewrite Hid in Hr' |- *.
      edestruct (IH _ _ Hr' (lookup_insert_eq st id _))
        as (p' & Hp' & Hown & Hti & Hde & Hyes & Hno); [done |].
      exists p'. cbn in Hown, Hti, Hde, Hyes, Hno.
      split; [exact Hp' |]. repeat split; try done.
      rewrite Hyes. by apply tally_step.
    + rewrite (voteNo_fresh id env st p Hp Ho Hvo) in Hr' |- *.
      cbn in Hr' |- *. rewrite Hid in Hr' |- *.
      edestruct (IH _ _ Hr' (lookup_insert_eq st id _))
        as (p' & Hp' & Hown & Hti & Hde & Hyes & Hno); [done |].
      exists p'. cbn in Hown, Hti, Hde, Hyes, Hno.
      split; [exact Hp' |]. repeat split; try done.
      rewrite Hno. by apply tally_step.
Qed.

Lemma votes_are_tallied_witness :
  ∃ p', run_calls
          (vote_call X <$> [(true, env_bob); (false, env_carol); (true, env_bob')])
          store1 !! X = Some p'
        ∧ Proposal.owner p' = Proposal.owner proposal1
        ∧ Proposal.title p' = Proposal.title proposal1
        ∧ Proposal.description p' = Proposal.description proposal1
        ∧ Proposal.yesVotes p'
          = N.min (2 ^ 53)
              (Proposal.yesVotes proposal1
               + count_ballots true
                   [(true, env_bob); (false, env_carol); (true, env_bob')])
        ∧ Proposal.noVotes p'
          = N.min (2 ^ 53)
              (Proposal.noVotes proposal1
               + count_ballots false
                   [(true, env_bob); (false, env_carol); (true, env_bob')]).
Proof.
  apply (votes_are_tallied X
           [(true, env_bob); (false, env_carol); (true, env_bob')]
           store1 proposal1 reachable_store1).
  - vm_compute; reflexivity.
  - repeat constructor; discriminate.
Defined.
